(** * remove_cards.py: deleting two marked sections of a page source

    A shallow embedding of [remove_cards.py].  The script reads one file,
    deletes with [re.sub] every span matched by two fixed patterns, and
    writes the text back.  The development has four parts:

    - the text model: a document is the list of code points of a Python [str];
    - the fragment of Python's [re] the two patterns use (literals, [\s],
      [.], greedy [*] and lazy [*?]) as a backtracking matcher, with
      [re.search] and [re.sub] on top of it;
    - the two removers and the driver [main], the latter over a small
      model of the file system and of standard output;
    - the properties of the removers and of the driver. *)

From Stdlib Require Import Ascii String DecimalString DecimalFacts DecimalNat.
From Stdlib Require Import List NArith Arith Bool Lia.
Import ListNotations.

Set Implicit Arguments.

(** ** Text *)

(** A Python [str] is a sequence of Unicode code points. *)
Definition document := list N.

(** The code points of an ASCII literal. *)
Definition text (s : string) : document :=
  map N_of_ascii (list_ascii_of_string s).

(** [str.isspace] on one code point, which is what [\s] tests in a [str]
    pattern: the table of [_PyUnicode_IsWhitespace]. *)
Definition isspace (c : N) : bool :=
  ((9 <=? c) && (c <=? 13) ||
   (28 <=? c) && (c <=? 32) ||
   (c =? 133) || (c =? 160) || (c =? 5760) ||
   (8192 <=? c) && (c <=? 8202) ||
   (c =? 8232) || (c =? 8233) || (c =? 8239) || (c =? 8287) ||
   (c =? 12288))%N.

Definition allspace (s : document) : bool := forallb isspace s.

(** [s.lstrip()] and [s.rstrip()]: [s] without its leading, respectively
    trailing, run of whitespace. *)
Fixpoint lstrip (s : document) : document :=
  match s with
  | [] => []
  | c :: s' => if isspace c then lstrip s' else s
  end.

Fixpoint rstrip (s : document) : document :=
  match s with
  | [] => []
  | c :: s' => if allspace s then [] else c :: rstrip s'
  end.

(** [strip_prefix l s] is [Some t] when [s = l ++ t]. *)
Fixpoint strip_prefix (l s : document) : option document :=
  match l with
  | [] => Some s
  | x :: l' =>
      match s with
      | [] => None
      | c :: s' => if (x =? c)%N then strip_prefix l' s' else None
      end
  end.

(** ** The fragment of [re] used by the script *)

Module Re.

(** One-character matchers, and what may follow them. *)
Inductive atom := Lit (c : N) | Space | Dot.
Inductive quant := One | Greedy | Lazy.

(** A pattern of the fragment is a sequence of quantified atoms. *)
Definition regex := list (atom * quant).

(** *** Reading a pattern *)

Inductive token := TAtom (a : atom) | TStar | TQuest.

Definition is_digit (c : ascii) : bool :=
  let n := N_of_ascii c in ((48 <=? n) && (n <=? 57))%N.

Definition is_alnum (c : ascii) : bool :=
  let n := N_of_ascii c in
  (is_digit c || (65 <=? n) && (n <=? 90) || (97 <=? n) && (n <=? 122))%N.

(** Characters whose meaning the fragment does not cover. *)
Definition is_meta (c : ascii) : bool :=
  existsb (Ascii.eqb c) (list_ascii_of_string "()[]|+^$").

Definition lit (c : ascii) : token := TAtom (Lit (N_of_ascii c)).

(** [\s] is the whitespace class and a backslash before a punctuation
    character makes it literal; [.] is the wildcard; [*] and [?] are kept
    for [assemble]; an opening brace that does not start a counted
    repetition is an ordinary character, as in [sre_parse].  Anything else
    outside the fragment is refused. *)
Fixpoint lex (s : list ascii) : option (list token) :=
  match s with
  | [] => Some []
  | c :: r =>
      if Ascii.eqb c "\" then
        match r with
        | [] => None
        | e :: r' =>
            if Ascii.eqb e "s" then option_map (cons (TAtom Space)) (lex r')
            else if is_alnum e then None
            else option_map (cons (lit e)) (lex r')
        end
      else if Ascii.eqb c "." then option_map (cons (TAtom Dot)) (lex r)
      else if Ascii.eqb c "*" then option_map (cons TStar) (lex r)
      else if Ascii.eqb c "?" then option_map (cons TQuest) (lex r)
      else if Ascii.eqb c "{" then
        match r with
        | d :: _ =>
            if is_digit d || Ascii.eqb d "," then None
            else option_map (cons (lit c)) (lex r)
        | [] => Some [lit c]
        end
      else if is_meta c then None
      else option_map (cons (lit c)) (lex r)
  end.

Fixpoint assemble (ts : list token) : option regex :=
  match ts with
  | [] => Some []
  | TAtom a :: TStar :: TQuest :: r => option_map (cons (a, Lazy)) (assemble r)
  | TAtom a :: TStar :: r => option_map (cons (a, Greedy)) (assemble r)
  | TAtom a :: r => option_map (cons (a, One)) (assemble r)
  | _ => None
  end.

(** [re.compile]; [None] stands for [re.error]. *)
Definition compile (pattern : string) : option regex :=
  match lex (list_ascii_of_string pattern) with
  | Some ts => assemble ts
  | None => None
  end.

(** *** Matching *)

(** With [re.DOTALL] the dot matches every character, without it every
    character but the newline. *)
Definition atom_ok (dotall : bool) (a : atom) (c : N) : bool :=
  match a with
  | Lit x => (x =? c)%N
  | Space => isspace c
  | Dot => dotall || negb (c =? 10)%N
  end.

(** [rmatch dotall p s] runs the backtracking matcher on [p] at the start
    of [s] and returns what is left of [s] after the match it finds first:
    a greedy star tries the longest run and gives characters back one at a
    time, a lazy star tries the empty run and takes characters one at a
    time. *)
Fixpoint rmatch (dotall : bool) (p : regex) {struct p}
  : document -> option document :=
  match p with
  | [] => fun s => Some s
  | (a, One) :: p' =>
      fun s =>
        match s with
        | [] => None
        | c :: s' => if atom_ok dotall a c then rmatch dotall p' s' else None
        end
  | (a, Greedy) :: p' =>
      fix greedy (s : document) : option document :=
        match s with
        | [] => rmatch dotall p' s
        | c :: s' =>
            if atom_ok dotall a c then
              match greedy s' with
              | Some r => Some r
              | None => rmatch dotall p' s
              end
            else rmatch dotall p' s
        end
  | (a, Lazy) :: p' =>
      fix lazy (s : document) : option document :=
        match rmatch dotall p' s with
        | Some r => Some r
        | None =>
            match s with
            | [] => None
            | c :: s' => if atom_ok dotall a c then lazy s' else None
            end
        end
  end.

(** [re.search]: the match at the leftmost position that has one, as the
    text before it and the text after it. *)
Fixpoint search (dotall : bool) (p : regex) (s : document)
  : option (document * document) :=
  match rmatch dotall p s with
  | Some rest => Some ([], rest)
  | None =>
      match s with
      | [] => None
      | c :: s' =>
          match search dotall p s' with
          | Some (pre, rest) => Some (c :: pre, rest)
          | None => None
          end
      end
  end.

(** The loop of [re.sub] with [count=0]: every match found from left to
    right is replaced, the search resuming where the previous match ended.
    Both patterns of the script consume at least their marker (lemma
    [block_consuming]), so that the rule of [re] for empty matches is not
    modelled and [length s] rounds are enough. *)
Fixpoint sub_loop (fuel : nat) (dotall : bool) (p : regex)
  (repl s : document) : document :=
  match fuel with
  | O => s
  | S fuel' =>
      match search dotall p s with
      | None => s
      | Some (pre, rest) => pre ++ repl ++ sub_loop fuel' dotall p repl rest
      end
  end.

(** [re.sub(pattern, repl, string, flags=...)] for a replacement without
    group references.  A pattern outside the fragment has no model; the
    two of the script are inside it (lemma [patterns_compile]). *)
Definition sub (pattern : string) (repl s : document) (dotall : bool)
  : document :=
  match compile pattern with
  | Some p => sub_loop (length s) dotall p repl s
  | None => s
  end.

Definition DOTALL := true.

End Re.

(** ** The script *)

Definition remove_optimization_result_section (content : document)
  : document :=
  let pattern :=
    "\s*{/\* Right Column: Optimization Results \*/}.*?</div>\s*</div>"%string in
  let result := Re.sub pattern (text "") content Re.DOTALL in
  result.

Definition remove_forecast_bands_section (content : document) : document :=
  let pattern :=
    "\s*{/\* Unified Forecast Bands Card - Full Width \*/}.*?</div>\s*</div>"%string in
  let result := Re.sub pattern (text "") content Re.DOTALL in
  result.

(** ** Files and standard output *)

(** The driver sees the outside world through one file and through
    [print].  A path names nothing, a regular file, or something that no
    [open] succeeds on (a directory, a path that runs through a regular
    file, ...).  A regular file holds bytes that either decode as UTF-8 to
    a text or do not, may be opened for reading and for writing or not,
    and may fail in the middle of a write, leaving whatever reached it. *)
Inductive exn :=
| FileNotFoundError
| PermissionError
| IsADirectoryError
| NotADirectoryError
| UnicodeDecodeError
| OSError (errno : nat).

Inductive payload := Utf8 (c : document) | Malformed.

Record file := File {
  readable : bool;
  writable : bool;
  fault : option (exn * payload);
  stored : payload
}.

Inductive node := Regular (f : file) | Unopenable (e : exn).

(** What decides [os.linesep]. *)
Inductive platform := Posix | Windows.

Record world := World {
  os : platform;
  disk : string -> option node;
  stdout : list string
}.

Inductive outcome (A : Type) := Return (a : A) | Raise (e : exn).
Arguments Raise {A} e.

(** A computation runs in a world and either returns or raises. *)
Definition IO (A : Type) := world -> outcome A * world.

Definition ret {A} (a : A) : IO A := fun w => (Return a, w).

Definition bind {A B} (m : IO A) (k : A -> IO B) : IO B :=
  fun w =>
    match m w with
    | (Return a, w') => k a w'
    | (Raise e, w') => (Raise e, w')
    end.

Notation "x <- m ;; k" := (bind m (fun x => k))
  (at level 61, m at next level, right associativity).
Notation "m ;; k" := (bind m (fun _ => k))
  (at level 61, right associativity).

Definition store (path : string) (n : node) (d : string -> option node)
  : string -> option node :=
  fun q => if String.eqb q path then Some n else d q.

(** Reading in text mode without a [newline] argument: a CR LF pair and
    a CR alone both come out as LF. *)
Fixpoint universal_newlines (s : document) : document :=
  match s with
  | [] => []
  | c :: r =>
      if (c =? 13)%N then
        10%N ::
        match r with
        | [] => []
        | d :: r' =>
            if (d =? 10)%N then universal_newlines r'
            else universal_newlines r
        end
      else c :: universal_newlines r
  end.

Definition os_linesep (p : platform) : document :=
  match p with
  | Posix => [10%N]
  | Windows => [13%N; 10%N]
  end.

(** Writing in text mode without a [newline] argument: every LF goes out
    as [os.linesep]. *)
Definition to_linesep (sep s : document) : document :=
  flat_map (fun c => if (c =? 10)%N then sep else [c]) s.

(** [with open(path, 'r', encoding='utf-8') as f: f.read()] *)
Definition read_text (path : string) : IO document :=
  fun w =>
    match disk w path with
    | None => (Raise FileNotFoundError, w)
    | Some (Unopenable e) => (Raise e, w)
    | Some (Regular f) =>
        if readable f then
          match stored f with
          | Utf8 c => (Return (universal_newlines c), w)
          | Malformed => (Raise UnicodeDecodeError, w)
          end
        else (Raise PermissionError, w)
    end.

(** [with open(path, 'w', encoding='utf-8') as f: f.write(content)] *)
Definition write_text (path : string) (content : document) : IO unit :=
  fun w =>
    let bytes := Utf8 (to_linesep (os_linesep (os w)) content) in
    match disk w path with
    | None =>
        (Return tt,
         World (os w)
               (store path (Regular (File true true None bytes)) (disk w))
               (stdout w))
    | Some (Unopenable e) => (Raise e, w)
    | Some (Regular f) =>
        if writable f then
          match fault f with
          | None =>
              (Return tt,
               World (os w)
                     (store path
                        (Regular (File (readable f) true None bytes))
                        (disk w))
                     (stdout w))
          | Some (e, remains) =>
              (Raise e,
               World (os w)
                     (store path
                        (Regular (File (readable f) true (fault f) remains))
                        (disk w))
                     (stdout w))
          end
        else (Raise PermissionError, w)
    end.

Definition print (line : string) : IO unit :=
  fun w => (Return tt, World (os w) (disk w) (stdout w ++ [line])).

(** [str(n)] for a length. *)
Definition decimal (n : nat) : string :=
  NilZero.string_of_uint (Nat.to_uint n).

Definition file_path : string := "app/company/[ticker]/timing/page.tsx".

Definition main : IO unit :=
  content <- read_text file_path ;;
  print ("Original file size: " ++ decimal (length content)
         ++ " characters")%string ;;
  let content := remove_optimization_result_section content in
  print ("After removing optimization result: " ++ decimal (length content)
         ++ " characters")%string ;;
  let content := remove_forecast_bands_section content in
  print ("After removing forecast bands: " ++ decimal (length content)
         ++ " characters")%string ;;
  write_text file_path content ;;
  print "Successfully removed both sections!".

(** ** Markers and what the patterns denote *)

Definition OPT : document :=
  text "{/* Right Column: Optimization Results */}".

Definition BANDS : document :=
  text "{/* Unified Forecast Bands Card - Full Width */}".

Definition DIV : document := text "</div>".

(** [occurs s D]: the text [s] occurs in [D]. *)
Definition occurs (s D : document) : Prop :=
  exists X Y, D = X ++ s ++ Y.

(** [closing t] is [Some r] when a closing boundary starts [t] and [r]
    follows it: a [DIV], a run of whitespace, a [DIV]. *)
Definition closing (t : document) : option document :=
  match strip_prefix DIV t with
  | Some t1 => strip_prefix DIV (lstrip t1)
  | None => None
  end.

(** [closing_in t]: a closing boundary occurs somewhere in [t]. *)
Definition closing_in (t : document) : Prop :=
  exists X W Y, allspace W = true /\ t = X ++ DIV ++ W ++ DIV ++ Y.

(** The first tail of [s], from [s] itself on, that [f] accepts. *)
Fixpoint first_tail (f : document -> option document) (s : document)
  : option document :=
  match f s with
  | Some r => Some r
  | None =>
      match s with
      | [] => None
      | _ :: s' => first_tail f s'
      end
  end.

(** What a block pattern does at the start of [t]: skip the whitespace, read
    the marker, and stop after the nearest closing boundary. *)
Definition block_match (s t : document) : option document :=
  match strip_prefix s (lstrip t) with
  | Some u => first_tail closing u
  | None => None
  end.

Definition lits (l : document) : Re.regex :=
  map (fun c => (Re.Lit c, Re.One)) l.

Definition closing_pattern : Re.regex :=
  lits DIV ++ (Re.Space, Re.Greedy) :: lits DIV.

Definition block (s : document) : Re.regex :=
  (Re.Space, Re.Greedy) :: lits s ++ (Re.Dot, Re.Lazy) :: closing_pattern.

(** A remover with its marker. *)
Inductive remover : document -> (document -> document) -> Prop :=
| remover_results : remover OPT remove_optimization_result_section
| remover_bands : remover BANDS remove_forecast_bands_section.

(** The remover for marker [s], once its pattern is compiled. *)
Definition remove_block (s content : document) : document :=
  Re.sub_loop (length content) Re.DOTALL (block s) [] content.

(** ** Notions used in the statements *)

(** A marker that starts with a character other than whitespace; both
    markers of the script start with a brace. *)
Definition marker (s : document) : Prop :=
  exists c0 s', s = c0 :: s' /\ isspace c0 = false.

(** A pattern is consuming when each of its matches takes a character. *)
Definition consuming (fl : bool) (p : Re.regex) : Prop :=
  forall t r, Re.rmatch fl p t = Some r -> length r < length t.

(** [starts s D]: [s] is a prefix of [D]. *)
Definition starts (s D : document) : bool :=
  match strip_prefix s D with Some _ => true | None => false end.

(** The positions of [D] at which [s] occurs, in increasing order. *)
Fixpoint positions (s D : document) : list nat :=
  (if starts s D then [0] else []) ++
  match D with
  | [] => []
  | _ :: D' => map S (positions s D')
  end.

(** The occurrence of [s] right after [A] is the first one. *)
Definition first_occurrence (s A : document) : Prop :=
  forall X Y, A ++ s = X ++ s ++ Y -> X = A.

(** The text of an end marker: two [DIV] with whitespace between. *)
Definition end_marker (e : document) : Prop :=
  exists W, allspace W = true /\ e = DIV ++ W ++ DIV.

(** ** Sample documents *)

(** The newline character. *)
Definition nl : document := [10%N].

(** Scenario 1 of the specification. *)
Definition scenario1 : document :=
  text "head" ++ nl ++ OPT ++ nl ++ text "foo" ++ nl ++ DIV ++ nl ++ DIV
  ++ nl ++ text "tail".

(** Two results blocks, one after the other. *)
Definition second_block : document :=
  text "mid" ++ OPT ++ text "b" ++ DIV ++ DIV ++ text "end".

(** A results block followed by [second_block]. *)
Definition two_blocks : document :=
  OPT ++ text "a" ++ DIV ++ DIV ++ second_block.

(** A results block whose end marker is followed by a second block and a
    further end marker. *)
Definition later_block : document :=
  text "mid" ++ OPT ++ text "y" ++ DIV ++ DIV ++ text "tail" ++ DIV ++ DIV.

(** ** The claims that fail, as the specification words them *)

(** The claim that a remover stops after the first matching span. *)
Definition deletes_first_span_only (s : document)
  (f : document -> document) : Prop :=
  forall D pre rest,
    Re.search true (block s) D = Some (pre, rest) ->
    Re.search true (block s) rest <> None ->
    f D = pre ++ rest.

(** The claim about a document with a single marker, with [e] read as any
    one text of the end marker. *)
Definition single_block_claim (s : document)
  (f : document -> document) : Prop :=
  forall A M e B,
    end_marker e -> ~ occurs e M ->
    (forall X Y, A ++ s ++ M ++ e ++ B = X ++ s ++ Y -> X = A) ->
    f (A ++ s ++ M ++ e ++ B) = rstrip A ++ B.

(** The claim that whatever follows the nearest end marker is kept. *)
Definition text_after_nearest_end_kept (s : document)
  (f : document -> document) : Prop :=
  forall A M e R,
    first_occurrence s A -> end_marker e ->
    (forall k, k < length M -> closing (skipn k (M ++ e ++ R)) = None) ->
    closing_in R ->
    f (A ++ s ++ M ++ e ++ R) = rstrip A ++ R.

(** The claim that a block is deleted exactly when the marker is followed
    by one fixed literal text [e]. *)
Definition literal_end_marker (s : document) (f : document -> document)
  (e : document) : Prop :=
  forall D, f D <> D <-> exists A M B, D = A ++ s ++ M ++ e ++ B.

(** ** The driver's report *)

(** The three size lines printed for the content [C]. *)
Definition size_lines (C : document) : list string :=
  let C1 := remove_optimization_result_section C in
  let C2 := remove_forecast_bands_section C1 in
  [("Original file size: " ++ decimal (length C) ++ " characters")%string;
   ("After removing optimization result: " ++ decimal (length C1)
    ++ " characters")%string;
   ("After removing forecast bands: " ++ decimal (length C2)
    ++ " characters")%string].

(** A sound regular file holding the text [C]. *)
Definition page (C : document) : node :=
  Regular (File true true None (Utf8 C)).

(** A world whose only file is the page, holding the text [C]. *)
Definition page_world (C : document) : world :=
  World Posix (store file_path (page C) (fun _ => None)) [].

(** The number a string of decimal digits stands for. *)
Definition parse_nat (d : string) : option nat :=
  option_map Nat.of_uint (NilZero.uint_of_string d).

(** A page saved with CR LF line ends. *)
Definition crlf_page : document := text "a" ++ [13%N; 10%N] ++ text "b".

(** The claim about the driver, with [C] read as the text the file holds. *)
Definition driver_as_claimed : Prop :=
  forall w C,
    disk w file_path = Some (page C) ->
    exists w',
      main w = (Return tt, w') /\
      disk w' file_path
      = Some (page (remove_forecast_bands_section
                      (remove_optimization_result_section C))) /\
      stdout w' = stdout w ++ size_lines C
                  ++ ["Successfully removed both sections!"%string].

(** ** Notions used in the further properties *)

(** [subseq a b]: [a] is [b] with some characters left out, the others in
    their order. *)
Inductive subseq : document -> document -> Prop :=
| subseq_nil : subseq [] []
| subseq_keep c a b : subseq a b -> subseq (c :: a) (c :: b)
| subseq_drop c a b : subseq a b -> subseq a (c :: b).

(** A page with a results block and then a bands block. *)
Definition both_blocks : document :=
  text "<main>" ++ nl ++ text "  " ++ OPT ++ nl ++ text "<p>r</p>"
  ++ (DIV ++ nl ++ DIV) ++ nl ++ text "<hr/>" ++ nl ++ BANDS
  ++ text "<p>b</p>" ++ (DIV ++ DIV) ++ nl ++ text "</main>".

(** ** Lists of characters *)

Lemma strip_prefix_app l t : strip_prefix l (l ++ t) = Some t.
Proof.
  induction l as [|x l IH]; simpl; [reflexivity|].
  now rewrite N.eqb_refl.
Qed.

Lemma strip_prefix_Some l : forall s t, strip_prefix l s = Some t -> s = l ++ t.
Proof.
  induction l as [|x l IH]; simpl; intros s t H.
  - now injection H.
  - destruct s as [|c s]; [discriminate|].
    destruct (N.eqb_spec x c) as [->|]; [|discriminate].
    f_equal. now apply IH.
Qed.

Lemma lstrip_split s : exists W, allspace W = true /\ s = W ++ lstrip s.
Proof.
  induction s as [|c s [W [HW E]]]; simpl.
  - now exists [].
  - destruct (isspace c) eqn:Hc.
    + exists (c :: W). simpl. rewrite Hc, HW. split; [reflexivity|congruence].
    + now exists [].
Qed.

Lemma lstrip_allspace_app W u : allspace W = true -> lstrip (W ++ u) = lstrip u.
Proof.
  induction W as [|c W IH]; simpl; [reflexivity|].
  intros H. apply andb_prop in H as [Hc HW]. rewrite Hc. now apply IH.
Qed.

Lemma lstrip_not_allspace A u :
  allspace A = false -> lstrip (A ++ u) = lstrip A ++ u /\ lstrip A <> [].
Proof.
  induction A as [|c A IH]; simpl; [discriminate|].
  destruct (isspace c); simpl; [exact IH|].
  intros _. split; [reflexivity|discriminate].
Qed.

Lemma allspace_app W1 W2 :
  allspace (W1 ++ W2) = allspace W1 && allspace W2.
Proof. apply forallb_app. Qed.

Lemma rstrip_allspace A : allspace A = true -> rstrip A = [].
Proof. destruct A as [|c A]; simpl; [reflexivity|]. now intros ->. Qed.

Lemma rstrip_cons c A :
  allspace (c :: A) = false -> rstrip (c :: A) = c :: rstrip A.
Proof. simpl. now intros ->. Qed.

(** [rstrip] cuts a run of whitespace off the end, and cuts all of it. *)
Lemma rstrip_split A : exists W, allspace W = true /\ A = rstrip A ++ W.
Proof.
  induction A as [|c A [W [HW E]]].
  - now exists [].
  - destruct (allspace (c :: A)) eqn:H.
    + exists (c :: A). now rewrite rstrip_allspace.
    + exists W. rewrite rstrip_cons by assumption. split; [assumption|].
      simpl. congruence.
Qed.

Lemma rstrip_last A : forall X c, rstrip A = X ++ [c] -> isspace c = false.
Proof.
  induction A as [|a A IH]; intros X c E.
  - now destruct X.
  - destruct (allspace (a :: A)) eqn:H.
    + rewrite rstrip_allspace in E by assumption. now destruct X.
    + rewrite rstrip_cons in E by assumption.
      destruct X as [|x X]; simpl in E.
      * injection E as -> E. simpl in H.
        destruct (isspace c); [|reflexivity].
        simpl in H. destruct A as [|b A]; [discriminate|].
        rewrite rstrip_cons in E by assumption. discriminate.
      * injection E as -> E. now apply (IH X).
Qed.

(** ** The matcher *)

Section Matcher.

Variable fl : bool.

Lemma rmatch_greedy_nil a p :
  Re.rmatch fl ((a, Re.Greedy) :: p) [] = Re.rmatch fl p [].
Proof. reflexivity. Qed.

Lemma rmatch_greedy_cons a p c s :
  Re.rmatch fl ((a, Re.Greedy) :: p) (c :: s) =
  if Re.atom_ok fl a c then
    match Re.rmatch fl ((a, Re.Greedy) :: p) s with
    | Some r => Some r
    | None => Re.rmatch fl p (c :: s)
    end
  else Re.rmatch fl p (c :: s).
Proof. reflexivity. Qed.

Lemma rmatch_lazy_eq a p s :
  Re.rmatch fl ((a, Re.Lazy) :: p) s =
  match Re.rmatch fl p s with
  | Some r => Some r
  | None =>
      match s with
      | [] => None
      | c :: s' =>
          if Re.atom_ok fl a c then Re.rmatch fl ((a, Re.Lazy) :: p) s'
          else None
      end
  end.
Proof. destruct s; reflexivity. Qed.

(** A match leaves a tail of the text it was run on. *)
Lemma rmatch_suffix p : forall s r,
  Re.rmatch fl p s = Some r -> exists X, s = X ++ r.
Proof.
  induction p as [|[a q] p IH]; intros s r H.
  - injection H as ->. now exists [].
  - destruct q.
    + destruct s as [|c s]; simpl in H; [discriminate|].
      destruct (Re.atom_ok fl a c); [|discriminate].
      destruct (IH _ _ H) as [X ->]. now exists (c :: X).
    + revert r H. induction s as [|c s IHs]; intros r H.
      * rewrite rmatch_greedy_nil in H. now apply IH.
      * rewrite rmatch_greedy_cons in H.
        destruct (Re.atom_ok fl a c); [|now apply IH].
        destruct (Re.rmatch fl ((a, Re.Greedy) :: p) s) as [r'|] eqn:E;
          [|now apply IH].
        injection H as ->. destruct (IHs _ eq_refl) as [X ->].
        now exists (c :: X).
    + revert r H. induction s as [|c s IHs]; intros r H;
        rewrite rmatch_lazy_eq in H.
      * destruct (Re.rmatch fl p []) eqn:E; [|discriminate].
        injection H as ->. now apply IH.
      * destruct (Re.rmatch fl p (c :: s)) eqn:E.
        { injection H as ->. now apply IH. }
        destruct (Re.atom_ok fl a c); [|discriminate].
        destruct (IHs _ H) as [X ->]. now exists (c :: X).
Qed.

Lemma rmatch_lits l p : forall s,
  Re.rmatch fl (lits l ++ p) s =
  match strip_prefix l s with
  | Some t => Re.rmatch fl p t
  | None => None
  end.
Proof.
  induction l as [|x l IH]; intros s; [reflexivity|].
  destruct s as [|c s]; simpl; [reflexivity|].
  destruct (x =? c)%N; [apply IH|reflexivity].
Qed.

(** Before a literal that is not whitespace, a greedy [\s*] cannot give
    anything back: it skips exactly the leading whitespace. *)
Lemma rmatch_space_star c0 p s :
  isspace c0 = false ->
  Re.rmatch fl ((Re.Space, Re.Greedy) :: (Re.Lit c0, Re.One) :: p) s =
  Re.rmatch fl ((Re.Lit c0, Re.One) :: p) (lstrip s).
Proof.
  intros H0. induction s as [|c s IH]; [reflexivity|].
  rewrite rmatch_greedy_cons. cbn [Re.atom_ok lstrip].
  destruct (isspace c) eqn:Hc; [|reflexivity].
  rewrite IH.
  destruct (Re.rmatch fl ((Re.Lit c0, Re.One) :: p) (lstrip s));
    [reflexivity|].
  simpl. destruct (N.eqb_spec c0 c) as [->|]; [congruence|reflexivity].
Qed.

Lemma rmatch_closing t : Re.rmatch fl closing_pattern t = closing t.
Proof.
  unfold closing_pattern, closing. rewrite rmatch_lits.
  destruct (strip_prefix DIV t) as [t1|]; [|reflexivity].
  change (lits DIV) with ((Re.Lit 60, Re.One) :: lits (tl DIV)).
  rewrite rmatch_space_star by reflexivity.
  change ((Re.Lit 60, Re.One) :: lits (tl DIV)) with (lits DIV).
  rewrite <- (app_nil_r (lits DIV)), rmatch_lits.
  now destruct (strip_prefix DIV (lstrip t1)).
Qed.

End Matcher.

Lemma first_tail_ext f g :
  (forall t, f t = g t) -> forall s, first_tail f s = first_tail g s.
Proof.
  intros E s. induction s as [|c s IH]; simpl; rewrite E; [reflexivity|].
  now rewrite IH.
Qed.

Lemma rmatch_lazy_dot p s :
  Re.rmatch true ((Re.Dot, Re.Lazy) :: p) s = first_tail (Re.rmatch true p) s.
Proof.
  induction s as [|c s IH]; rewrite rmatch_lazy_eq; simpl;
    destruct (Re.rmatch true p _); try reflexivity.
  exact IH.
Qed.

Lemma marker_OPT : marker OPT.
Proof. now exists 123%N, (tl OPT). Qed.

Lemma marker_BANDS : marker BANDS.
Proof. now exists 123%N, (tl BANDS). Qed.

(** The block pattern, run by the matcher, is [block_match]. *)
Lemma rmatch_block s t :
  marker s -> Re.rmatch true (block s) t = block_match s t.
Proof.
  intros (c0 & s' & -> & H0). unfold block, block_match.
  change (lits (c0 :: s') ++ ?q) with ((Re.Lit c0, Re.One) :: lits s' ++ q).
  rewrite rmatch_space_star by assumption.
  change ((Re.Lit c0, Re.One) :: lits s' ++ ?q) with (lits (c0 :: s') ++ q).
  rewrite rmatch_lits.
  destruct (strip_prefix (c0 :: s') (lstrip t)) as [u|]; [|reflexivity].
  rewrite rmatch_lazy_dot. apply first_tail_ext, rmatch_closing.
Qed.

Lemma patterns_compile :
  Re.compile
    "\s*{/\* Right Column: Optimization Results \*/}.*?</div>\s*</div>"
  = Some (block OPT) /\
  Re.compile
    "\s*{/\* Unified Forecast Bands Card - Full Width \*/}.*?</div>\s*</div>"
  = Some (block BANDS).
Proof. split; reflexivity. Qed.

Lemma remover_eq s f : remover s f -> forall D, f D = remove_block s D.
Proof.
  intros [] D.
  - unfold remove_optimization_result_section, Re.sub.
    now rewrite (proj1 patterns_compile).
  - unfold remove_forecast_bands_section, Re.sub.
    now rewrite (proj2 patterns_compile).
Qed.

Lemma remover_marker s f : remover s f -> marker s.
Proof. intros []; [apply marker_OPT|apply marker_BANDS]. Qed.

(** ** Closing boundaries and block matches *)

Lemma DIV_head t : lstrip (DIV ++ t) = DIV ++ t.
Proof. reflexivity. Qed.

Lemma closing_intro W r :
  allspace W = true -> closing (DIV ++ W ++ DIV ++ r) = Some r.
Proof.
  intros HW. unfold closing. rewrite strip_prefix_app.
  rewrite lstrip_allspace_app, DIV_head by assumption.
  apply strip_prefix_app.
Qed.

Lemma closing_inv t r :
  closing t = Some r ->
  exists W, allspace W = true /\ t = DIV ++ W ++ DIV ++ r.
Proof.
  unfold closing. destruct (strip_prefix DIV t) as [t1|] eqn:E1; [|discriminate].
  intros E2. apply strip_prefix_Some in E1, E2.
  destruct (lstrip_split t1) as [W [HW E]].
  exists W. split; [assumption|]. rewrite E1, E at 1. now rewrite E2.
Qed.

Lemma first_tail_inv f s r :
  first_tail f s = Some r -> exists X t, s = X ++ t /\ f t = Some r.
Proof.
  induction s as [|c s IH]; simpl; intros H.
  - destruct (f []) eqn:E; [|discriminate].
    exists [], []. split; [reflexivity|congruence].
  - destruct (f (c :: s)) eqn:E.
    + exists [], (c :: s). split; [reflexivity|congruence].
    + destruct (IH H) as (X & t & -> & Ht). now exists (c :: X), t.
Qed.

Lemma first_tail_None f s :
  (forall X t, s = X ++ t -> f t = None) -> first_tail f s = None.
Proof.
  induction s as [|c s IH]; simpl; intros H.
  - now rewrite (H [] []).
  - rewrite (H [] (c :: s)) by reflexivity.
    apply IH. intros X t ->. now apply (H (c :: X)).
Qed.

Lemma first_tail_app f M t :
  f t <> None -> first_tail f (M ++ t) <> None.
Proof.
  intros H. induction M as [|c M IH]; simpl.
  - destruct t; simpl; destruct (f _); congruence.
  - destruct (f (c :: M ++ t)); [discriminate|assumption].
Qed.

(** When no accepted tail starts inside [M], the first accepted tail of
    [M ++ t] is [t]. *)
Lemma first_tail_exact f M : forall t r,
  (forall k, k < length M -> f (skipn k (M ++ t)) = None) ->
  f t = Some r -> first_tail f (M ++ t) = Some r.
Proof.
  induction M as [|c M IH]; intros t r H Ht.
  - destruct t; simpl; now rewrite Ht.
  - assert (E : f (c :: M ++ t) = None) by (apply (H 0); simpl; lia).
    simpl. rewrite E. apply IH; [|assumption]. intros k Hk. apply (H (S k)). simpl. lia.
Qed.

Lemma block_match_inv s t r :
  block_match s t = Some r ->
  exists W M Wc, allspace W = true /\ allspace Wc = true /\
    t = W ++ s ++ M ++ DIV ++ Wc ++ DIV ++ r.
Proof.
  unfold block_match.
  destruct (strip_prefix s (lstrip t)) as [u|] eqn:E; [|discriminate].
  intros H. apply strip_prefix_Some in E.
  destruct (first_tail_inv _ _ H) as (M & v & -> & Hv).
  destruct (closing_inv _ Hv) as (Wc & HWc & ->).
  destruct (lstrip_split t) as (W & HW & Et).
  exists W, M, Wc. repeat split; try assumption. now rewrite Et, E at 1.
Qed.

Lemma block_match_intro s M W r :
  marker s -> allspace W = true ->
  block_match s (s ++ M ++ DIV ++ W ++ DIV ++ r) <> None.
Proof.
  intros (c0 & s' & -> & H0) HW. unfold block_match.
  cbn [app lstrip]. rewrite H0.
  change (c0 :: s' ++ ?u) with ((c0 :: s') ++ u). rewrite strip_prefix_app.
  apply first_tail_app. now rewrite closing_intro.
Qed.

(** ** Searching and substituting *)

Section Search.

Variables (fl : bool) (p : Re.regex).

Lemma search_here t r :
  Re.rmatch fl p t = Some r -> Re.search fl p t = Some ([], r).
Proof. destruct t; simpl; now intros ->. Qed.

Lemma search_later c t :
  Re.rmatch fl p (c :: t) = None ->
  Re.search fl p (c :: t) =
  match Re.search fl p t with
  | Some (pre, rest) => Some (c :: pre, rest)
  | None => None
  end.
Proof. simpl. now intros ->. Qed.

Lemma search_None s :
  (forall X t, s = X ++ t -> Re.rmatch fl p t = None) ->
  Re.search fl p s = None.
Proof.
  induction s as [|c s IH]; simpl; intros H.
  - now rewrite (H [] []).
  - rewrite (H [] (c :: s)) by reflexivity.
    rewrite IH; [reflexivity|]. intros X t ->. now apply (H (c :: X)).
Qed.

Lemma search_inv s pre rest :
  Re.search fl p s = Some (pre, rest) ->
  exists t, s = pre ++ t /\ Re.rmatch fl p t = Some rest.
Proof.
  revert pre. induction s as [|c s IH]; simpl; intros pre H.
  - destruct (Re.rmatch fl p []) eqn:E; [|discriminate].
    injection H as <- <-. now exists [].
  - destruct (Re.rmatch fl p (c :: s)) eqn:E.
    + injection H as <- <-. now exists (c :: s).
    + destruct (Re.search fl p s) as [[pre' rest']|]; [|discriminate].
      injection H as <- <-. destruct (IH _ eq_refl) as (t & -> & Ht).
      now exists t.
Qed.

Lemma search_app X t :
  Re.rmatch fl p t <> None -> Re.search fl p (X ++ t) <> None.
Proof.
  intros H. induction X as [|c X IH]; simpl.
  - destruct t; simpl; destruct (Re.rmatch fl p _); congruence.
  - destruct (Re.rmatch fl p (c :: X ++ t)); [discriminate|].
    now destruct (Re.search fl p (X ++ t)) as [[? ?]|].
Qed.

Lemma search_length s pre rest :
  Re.search fl p s = Some (pre, rest) -> length pre + length rest <= length s.
Proof.
  intros H. destruct (search_inv _ H) as (t & -> & Ht).
  destruct (rmatch_suffix _ _ _ Ht) as [X ->].
  rewrite !length_app. lia.
Qed.

(** With the empty replacement the text never grows. *)
Lemma sub_loop_length fuel : forall s,
  length (Re.sub_loop fuel fl p [] s) <= length s.
Proof.
  induction fuel as [|fuel IH]; intros s; simpl; [lia|].
  destruct (Re.search fl p s) as [[pre rest]|] eqn:E; [|lia].
  apply search_length in E. rewrite length_app. specialize (IH rest). lia.
Qed.

Hypothesis p_consuming : consuming fl p.

Lemma search_shorter s pre rest :
  Re.search fl p s = Some (pre, rest) -> length pre + length rest < length s.
Proof.
  intros H. destruct (search_inv _ H) as (t & -> & Ht).
  apply p_consuming in Ht. rewrite length_app. lia.
Qed.

(** Past the length of the text, more fuel changes nothing. *)
Lemma sub_loop_fuel repl f1 : forall f2 s,
  length s <= f1 -> length s <= f2 ->
  Re.sub_loop f1 fl p repl s = Re.sub_loop f2 fl p repl s.
Proof.
  induction f1 as [|f1 IH]; intros f2 s H1 H2.
  - destruct s; [|simpl in H1; lia].
    destruct f2; cbn [Re.sub_loop]; [reflexivity|].
    destruct (Re.search fl p []) as [[pre rest]|] eqn:E; [|reflexivity].
    apply search_shorter in E. simpl in E. lia.
  - destruct f2 as [|f2].
    + destruct s; [|simpl in H2; lia].
      cbn [Re.sub_loop].
      destruct (Re.search fl p []) as [[pre rest]|] eqn:E; [|reflexivity].
      apply search_shorter in E. simpl in E. lia.
    + simpl. destruct (Re.search fl p s) as [[pre rest]|] eqn:E;
        [|reflexivity].
      apply search_shorter in E. do 2 f_equal. apply IH; lia.
Qed.

(** One round of the loop. *)
Lemma sub_loop_step repl s pre rest :
  Re.search fl p s = Some (pre, rest) ->
  Re.sub_loop (length s) fl p repl s =
  pre ++ repl ++ Re.sub_loop (length rest) fl p repl rest.
Proof.
  intros E. pose proof (search_shorter _ E) as Hl.
  destruct (length s) as [|n] eqn:En; [lia|].
  simpl. rewrite E. do 2 f_equal. apply sub_loop_fuel; lia.
Qed.

Lemma sub_loop_stop repl s :
  Re.search fl p s = None -> Re.sub_loop (length s) fl p repl s = s.
Proof. intros E. destruct (length s); simpl; [reflexivity|]. now rewrite E. Qed.

End Search.

(** ** Occurrences of a text *)

Lemma positions_complete s Y : forall X,
  In (length X) (positions s (X ++ s ++ Y)).
Proof.
  induction X as [|c X IH].
  - assert (E : starts s (s ++ Y) = true)
      by (unfold starts; now rewrite strip_prefix_app).
    simpl. destruct (s ++ Y); simpl; rewrite E; now left.
  - simpl. apply in_or_app. right. now apply in_map.
Qed.

Lemma occurs_positions s D : positions s D = [] -> ~ occurs s D.
Proof.
  intros E (X & Y & ->). pose proof (positions_complete s Y X) as H.
  now rewrite E in H.
Qed.

Lemma app_same_length (X A U V : document) :
  X ++ U = A ++ V -> length X = length A -> X = A.
Proof.
  revert A. induction X as [|x X IH]; intros [|a A] E L;
    try discriminate; [reflexivity|].
  injection E as -> E. injection L as L. f_equal. now apply IH.
Qed.

(** When [s] occurs in [A ++ T] at the single position [length A], every
    way of writing the text around [s] starts with [A]. *)
Lemma positions_only s A T :
  positions s (A ++ T) = [length A] ->
  forall X Y, A ++ T = X ++ s ++ Y -> X = A.
Proof.
  intros E X Y H. pose proof (positions_complete s Y X) as I.
  rewrite <- H, E in I. destruct I as [I|[]].
  symmetry in H. now apply (app_same_length _ _ _ _ H).
Qed.

(** ** Block patterns in a document *)

Section Block.

Variable s : document.
Hypothesis s_marker : marker s.

Lemma marker_length : 0 < length s.
Proof. destruct s_marker as (c0 & s' & -> & _). simpl. lia. Qed.

Lemma block_consuming : consuming true (block s).
Proof.
  intros t r H. rewrite rmatch_block in H by assumption.
  destruct (block_match_inv _ _ H) as (W & M & Wc & _ & _ & ->).
  pose proof marker_length. rewrite !length_app. lia.
Qed.

Lemma remove_block_step D pre rest :
  Re.search true (block s) D = Some (pre, rest) ->
  remove_block s D = pre ++ remove_block s rest.
Proof. intros E. apply (sub_loop_step block_consuming [] D E). Qed.

Lemma remove_block_stop D :
  Re.search true (block s) D = None -> remove_block s D = D.
Proof. apply sub_loop_stop. Qed.

Lemma remove_block_length D : length (remove_block s D) <= length D.
Proof. apply sub_loop_length. Qed.

(** A match anywhere in [D] shows the marker with a closing boundary
    after it. *)
Lemma search_block_inv D pre rest :
  Re.search true (block s) D = Some (pre, rest) ->
  exists W M Wc, allspace W = true /\ allspace Wc = true /\
    D = pre ++ W ++ s ++ M ++ DIV ++ Wc ++ DIV ++ rest.
Proof.
  intros E. destruct (search_inv _ _ _ E) as (t & -> & Ht).
  rewrite rmatch_block in Ht by assumption.
  destruct (block_match_inv _ _ Ht) as (W & M & Wc & HW & HWc & ->).
  now exists W, M, Wc.
Qed.

Lemma search_block_None D :
  (forall A T, D = A ++ s ++ T -> ~ closing_in T) ->
  Re.search true (block s) D = None.
Proof.
  intros H. destruct (Re.search true (block s) D) as [[pre rest]|] eqn:E;
    [|reflexivity].
  destruct (search_block_inv _ E) as (W & M & Wc & _ & HWc & ->).
  exfalso. apply (H (pre ++ W) (M ++ DIV ++ Wc ++ DIV ++ rest)).
  - now rewrite <- app_assoc.
  - now exists M, Wc, rest.
Qed.

Lemma search_block_Some A M W B :
  allspace W = true ->
  Re.search true (block s) (A ++ s ++ M ++ DIV ++ W ++ DIV ++ B) <> None.
Proof.
  intros HW. apply search_app. rewrite rmatch_block by assumption.
  now apply block_match_intro.
Qed.

(** No match starts before the whitespace in front of the first marker. *)
Lemma block_match_early A T :
  first_occurrence s A -> allspace A = false ->
  block_match s (A ++ s ++ T) = None.
Proof.
  intros H1 HA. unfold block_match.
  destruct (lstrip_not_allspace A (s ++ T) HA) as [-> HL].
  destruct (strip_prefix s (lstrip A ++ s ++ T)) as [u|] eqn:E;
    [|reflexivity].
  exfalso. apply strip_prefix_Some in E. rewrite app_assoc in E.
  destruct (lstrip_split A) as (W & _ & EA).
  apply app_eq_app in E as [l [[E _]|[E _]]].
  - apply HL. assert (EW : W = A).
    { apply (H1 W l). rewrite <- E, app_assoc. now rewrite <- EA. }
    rewrite EW in EA. apply (f_equal (@length N)) in EA.
    rewrite length_app in EA. destruct (lstrip A); [reflexivity|].
    simpl in EA. lia.
  - apply HL. apply (f_equal (@length N)) in E.
    rewrite !length_app in E. destruct (lstrip A); [reflexivity|].
    simpl in E. lia.
Qed.

(** The first match starts at the whitespace in front of the first marker
    and ends after the nearest closing boundary. *)
Lemma search_first A : forall T r,
  first_occurrence s A -> first_tail closing T = Some r ->
  Re.search true (block s) (A ++ s ++ T) = Some (rstrip A, r).
Proof.
  assert (here : forall W T r, allspace W = true ->
            first_tail closing T = Some r ->
            Re.rmatch true (block s) (W ++ s ++ T) = Some r).
  { intros W T r HW HT. rewrite rmatch_block by assumption.
    unfold block_match. rewrite lstrip_allspace_app by assumption.
    destruct s_marker as (c0 & s' & -> & H0). cbn [app lstrip].
    rewrite H0. change (c0 :: s' ++ T) with ((c0 :: s') ++ T).
    now rewrite strip_prefix_app. }
  induction A as [|c A IH]; intros T r H1 HT.
  - apply search_here. now apply (here []).
  - destruct (allspace (c :: A)) eqn:HA.
    + rewrite rstrip_allspace by assumption.
      apply search_here. now apply here.
    + rewrite rstrip_cons by assumption.
      change ((c :: A) ++ s ++ T) with (c :: A ++ s ++ T).
      rewrite search_later.
      * rewrite (IH T r); [reflexivity| |assumption].
        intros X Y EX. assert (EC : c :: X = c :: A)
          by (apply (H1 (c :: X) Y); simpl; now rewrite EX).
        now injection EC.
      * rewrite rmatch_block by assumption.
        now apply (@block_match_early (c :: A) T).
Qed.

End Block.

(** ** Properties of the removers *)

Lemma first_occurrence_nil s : first_occurrence s [].
Proof.
  intros X Y E. apply (f_equal (@length N)) in E.
  rewrite !length_app in E. destruct X; [reflexivity|]. simpl in E. lia.
Qed.

Lemma end_marker_closing e B :
  end_marker e -> closing (e ++ B) = Some B.
Proof.
  intros (W & HW & ->). rewrite <- !app_assoc. now apply closing_intro.
Qed.

Lemma remove_block_absent s D :
  marker s -> ~ occurs s D -> remove_block s D = D.
Proof.
  intros Hs H. apply remove_block_stop, search_block_None; [assumption|].
  intros A T -> _. apply H. now exists A, T.
Qed.

(** C1, as stated, fails: in [two_blocks] the first matching span is the
    first block and what follows it holds a second matching span;
    the remover deletes both and returns ["midend"], not the text around
    the first span. *)
Lemma two_blocks_both_deleted :
  Re.search true (block OPT) two_blocks = Some ([], second_block) /\
  Re.search true (block OPT) second_block <> None /\
  remove_optimization_result_section two_blocks = text "midend" /\
  ~ deletes_first_span_only OPT remove_optimization_result_section.
Proof.
  assert (E1 : Re.search true (block OPT) two_blocks = Some ([], second_block))
    by (vm_compute; reflexivity).
  assert (E2 : Re.search true (block OPT) second_block <> None)
    by (vm_compute; discriminate).
  split; [exact E1|]. split; [exact E2|]. split.
  - vm_compute. reflexivity.
  - intros H. specialize (H _ _ _ E1 E2). vm_compute in H. discriminate.
Qed.

(** C1, amended: a remover deletes every matching span that the search
    finds from left to right.  When the first matching span of [D] lies
    between [pre] and [rest], the output is [pre] followed by the remover's
    output on [rest]; when [rest] has a further matching span, that output
    is shorter than [rest]. *)
Theorem every_span_deleted s f :
  remover s f ->
  forall D pre rest,
    Re.search true (block s) D = Some (pre, rest) ->
    f D = pre ++ f rest /\
    (Re.search true (block s) rest <> None -> length (f rest) < length rest).
Proof.
  intros Hf D pre rest E. pose proof (remover_marker Hf) as Hs.
  rewrite !(remover_eq Hf). split.
  - now apply remove_block_step.
  - intros H.
    destruct (Re.search true (block s) rest) as [[pre' rest']|] eqn:E';
      [|congruence].
    rewrite (remove_block_step Hs _ E'), length_app.
    pose proof (search_shorter (block_consuming Hs) _ E').
    pose proof (remove_block_length s rest'). lia.
Qed.

Lemma every_span_deleted_witness :
  remove_optimization_result_section two_blocks =
    [] ++ remove_optimization_result_section second_block /\
  (Re.search true (block OPT) second_block <> None ->
   length (remove_optimization_result_section second_block)
   < length second_block).
Proof.
  apply (every_span_deleted remover_results two_blocks).
  vm_compute. reflexivity.
Defined.

(** C2, as stated, fails: with [M] the text [</div>] and [e] the text
    [</div></div>], [M] does not contain [e], but a closing boundary already
    starts in [M] and ends inside [e]; the span stops there and the last
    [</div>] stays. *)
Lemma overlapping_boundary_kept :
  end_marker (DIV ++ DIV) /\
  ~ occurs (DIV ++ DIV) DIV /\
  (forall X Y, [] ++ OPT ++ DIV ++ (DIV ++ DIV) ++ [] = X ++ OPT ++ Y ->
               X = []) /\
  remove_optimization_result_section
    ([] ++ OPT ++ DIV ++ (DIV ++ DIV) ++ []) = DIV /\
  ~ single_block_claim OPT remove_optimization_result_section.
Proof.
  assert (H1 : end_marker (DIV ++ DIV)) by now exists [].
  assert (H2 : ~ occurs (DIV ++ DIV) DIV)
    by (apply occurs_positions; reflexivity).
  assert (H3 : forall X Y,
             [] ++ OPT ++ DIV ++ (DIV ++ DIV) ++ [] = X ++ OPT ++ Y -> X = [])
    by (apply (positions_only OPT []); vm_compute; reflexivity).
  split; [exact H1|]. split; [exact H2|]. split; [exact H3|]. split.
  - vm_compute. reflexivity.
  - intros H. specialize (H _ _ _ _ H1 H2 H3). vm_compute in H. discriminate.
Qed.

(** C2, amended: for every decomposition [D = A ++ s ++ M ++ e ++ B] where
    [e] is an end-marker text ([</div>], whitespace, [</div>]), no closing
    boundary starts at a position of [M] (not even one that runs into [e]),
    and [s] occurs nowhere else in [D], the remover returns [rstrip A ++ B]:
    the deleted span takes the whitespace in front of the marker with it. *)
Theorem single_block_removed s f :
  remover s f ->
  forall A M e B,
    end_marker e ->
    (forall k, k < length M -> closing (skipn k (M ++ e ++ B)) = None) ->
    (forall X Y, A ++ s ++ M ++ e ++ B = X ++ s ++ Y -> X = A) ->
    f (A ++ s ++ M ++ e ++ B) = rstrip A ++ B.
Proof.
  intros Hf A M e B He HM Hu. pose proof (remover_marker Hf) as Hs.
  rewrite (remover_eq Hf).
  assert (H1 : first_occurrence s A).
  { intros X Y E. apply (Hu X (Y ++ M ++ e ++ B)).
    rewrite (app_assoc A), E, <- !app_assoc. reflexivity. }
  assert (HT : first_tail closing (M ++ e ++ B) = Some B)
    by (apply first_tail_exact; [assumption|now apply end_marker_closing]).
  rewrite (remove_block_step Hs _ (search_first Hs _ H1 HT)).
  f_equal. apply remove_block_absent; [assumption|].
  intros (X & Y & ->).
  assert (E : A ++ s ++ M ++ e ++ X = A).
  { apply (Hu _ Y). now rewrite <- !app_assoc. }
  apply (f_equal (@length N)) in E. rewrite !length_app in E.
  pose proof (marker_length Hs). lia.
Qed.

Lemma single_block_removed_witness :
  remove_optimization_result_section
    ((text "head" ++ nl) ++ OPT ++ (nl ++ text "foo" ++ nl)
     ++ (DIV ++ nl ++ DIV) ++ (nl ++ text "tail"))
  = rstrip (text "head" ++ nl) ++ (nl ++ text "tail").
Proof.
  apply (single_block_removed remover_results).
  - now exists nl.
  - intros k Hk. do 5 (destruct k as [|k]; [reflexivity|]).
    simpl in Hk. lia.
  - apply positions_only. vm_compute. reflexivity.
Defined.

(** C3, as stated, fails: in [OPT ++ DIV ++ " " ++ DIV ++ later_block] the
    marker is followed by three end markers and the nearest one ends the
    first span, but the text after it holds a second block, which is
    deleted as well: the output is ["midtail</div></div>"]. *)
Lemma later_block_not_kept :
  first_occurrence OPT [] /\
  end_marker (DIV ++ text " " ++ DIV) /\
  closing_in later_block /\
  remove_optimization_result_section
    ([] ++ OPT ++ [] ++ (DIV ++ text " " ++ DIV) ++ later_block)
  = text "midtail" ++ DIV ++ DIV /\
  ~ text_after_nearest_end_kept OPT remove_optimization_result_section.
Proof.
  assert (H1 : first_occurrence OPT []) by apply first_occurrence_nil.
  assert (H2 : end_marker (DIV ++ text " " ++ DIV)) by now exists (text " ").
  assert (H3 : closing_in later_block)
    by now exists (text "mid" ++ OPT ++ text "y"), [], (text "tail" ++ DIV ++ DIV).
  split; [exact H1|]. split; [exact H2|]. split; [exact H3|]. split.
  - vm_compute. reflexivity.
  - intros H. specialize (H [] [] _ later_block H1 H2).
    assert (H4 : forall k, k < length (@nil N) ->
              closing (skipn k ([] ++ (DIV ++ text " " ++ DIV) ++ later_block))
              = None) by (simpl; intros; lia).
    specialize (H H4 H3). vm_compute in H. discriminate.
Qed.

(** C3, amended: the span deleted at the first start marker ends exactly at
    the nearest closing boundary after the marker, whatever end markers
    follow.  The text [R] after that boundary is handed to the same remover
    and so stays verbatim when the start marker does not occur in it again;
    a later start marker with a closing boundary of its own is deleted in
    its turn. *)
Theorem span_ends_at_nearest_end s f :
  remover s f ->
  forall A M e R,
    first_occurrence s A -> end_marker e ->
    (forall k, k < length M -> closing (skipn k (M ++ e ++ R)) = None) ->
    f (A ++ s ++ M ++ e ++ R) = rstrip A ++ f R /\
    (~ occurs s R -> f (A ++ s ++ M ++ e ++ R) = rstrip A ++ R).
Proof.
  intros Hf A M e R H1 He HM. pose proof (remover_marker Hf) as Hs.
  rewrite !(remover_eq Hf).
  assert (HT : first_tail closing (M ++ e ++ R) = Some R)
    by (apply first_tail_exact; [assumption|now apply end_marker_closing]).
  rewrite (remove_block_step Hs _ (search_first Hs _ H1 HT)).
  split; [reflexivity|]. intros HR. now rewrite remove_block_absent.
Qed.

Lemma span_ends_at_nearest_end_witness :
  remove_forecast_bands_section
    (text "x  " ++ BANDS ++ text "card" ++ (DIV ++ nl ++ DIV)
     ++ text "</div> </div>rest")
  = rstrip (text "x  ")
    ++ remove_forecast_bands_section (text "</div> </div>rest") /\
  (~ occurs BANDS (text "</div> </div>rest") ->
   remove_forecast_bands_section
     (text "x  " ++ BANDS ++ text "card" ++ (DIV ++ nl ++ DIV)
      ++ text "</div> </div>rest")
   = rstrip (text "x  ") ++ text "</div> </div>rest").
Proof.
  apply (span_ends_at_nearest_end remover_bands).
  - intros X Y E. apply (positions_only BANDS (text "x  ") BANDS) with (Y := Y).
    + vm_compute. reflexivity.
    + rewrite E. reflexivity.
  - now exists nl.
  - intros k Hk. do 4 (destruct k as [|k]; [reflexivity|]).
    simpl in Hk. lia.
Defined.

(** C4, as stated, fails: no literal text can play the part of the end
    marker.  The remover deletes the block of [OPT ++ "</div></div>"] and
    leaves that document alone when its first or its last character after
    the marker is dropped, so the literal would have to be
    ["</div></div>"]; but the block of [OPT ++ "</div> </div>"], where that
    text does not occur, is deleted too. *)
Lemma no_literal_end_marker :
  remove_optimization_result_section (OPT ++ text "</div></div>") = [] /\
  remove_optimization_result_section (OPT ++ text "</div> </div>") = [] /\
  ~ exists e, literal_end_marker OPT remove_optimization_result_section e.
Proof.
  split; [vm_compute; reflexivity|]. split; [vm_compute; reflexivity|].
  intros [e He].
  assert (E : e = text "</div></div>").
  { destruct (proj1 (He (OPT ++ text "</div></div>"))) as (A & M & B & E).
    { vm_compute. discriminate. }
    assert (A = []) as ->.
    { apply (positions_only OPT [] (OPT ++ text "</div></div>"))
        with (Y := M ++ e ++ B); [vm_compute; reflexivity|exact E]. }
    change (OPT ++ text "</div></div>" = OPT ++ M ++ e ++ B) in E.
    apply app_inv_head in E.
    destruct M as [|m M].
    - destruct B as [|b0 B0] using rev_ind.
      + now rewrite app_nil_r in E.
      + exfalso. rename B0 into B'.
        assert (E' : e ++ B' = text "</div></div").
        { simpl in E. rewrite app_assoc in E.
          change (text "</div></div>") with (text "</div></div" ++ [62%N]) in E.
          now apply app_inj_tail in E. }
        apply (proj2 (He (OPT ++ e ++ B'))).
        * now exists [], [], B'.
        * rewrite E'. vm_compute. reflexivity.
    - exfalso. injection E as _ E.
      apply (proj2 (He (OPT ++ M ++ e ++ B))).
      + now exists [], M, B.
      + rewrite <- E. vm_compute. reflexivity. }
  subst e.
  destruct (proj1 (He (OPT ++ text "</div> </div>"))) as (A & M & B & E).
  { vm_compute. discriminate. }
  pose proof (positions_complete (text "</div></div>") B (A ++ OPT ++ M)) as I.
  rewrite <- !app_assoc, <- E in I. vm_compute in I. exact I.
Qed.

(** C4, amended: the start marker is matched verbatim, while the end
    marker is [</div>], any run of whitespace (none included), [</div>].
    A remover changes a document exactly when the document contains the
    exact start-marker text followed, at its end or later, by such a
    closing boundary. *)
Theorem deletes_iff_marker_then_closing s f :
  remover s f ->
  forall D,
    f D <> D <->
    exists A M W B,
      allspace W = true /\ D = A ++ s ++ M ++ DIV ++ W ++ DIV ++ B.
Proof.
  intros Hf D. pose proof (remover_marker Hf) as Hs.
  rewrite (remover_eq Hf). split.
  - intros H.
    destruct (Re.search true (block s) D) as [[pre rest]|] eqn:E.
    + destruct (search_block_inv Hs _ E) as (W & M & Wc & _ & HWc & ->).
      exists (pre ++ W), M, Wc, rest. split; [assumption|].
      now rewrite <- app_assoc.
    + now rewrite remove_block_stop in H.
  - intros (A & M & W & B & HW & ->) H.
    pose proof (@search_block_Some s Hs A M W B HW) as HS.
    destruct (Re.search true (block s) _) as [[pre rest]|] eqn:E;
      [|congruence].
    rewrite (remove_block_step Hs _ E) in H.
    apply (f_equal (@length N)) in H. rewrite length_app in H.
    pose proof (search_shorter (block_consuming Hs) _ E).
    pose proof (remove_block_length s rest). lia.
Qed.

Lemma deletes_iff_marker_then_closing_witness :
  remove_optimization_result_section scenario1 <> scenario1 <->
  exists A M W B,
    allspace W = true /\ scenario1 = A ++ OPT ++ M ++ DIV ++ W ++ DIV ++ B.
Proof.
  apply (deletes_iff_marker_then_closing remover_results).
Defined.

(** C5: a remover returns unchanged every document in which its start
    marker does not occur; the removers are total functions, so that no
    error is raised.  Hence a second application to a reduced document in
    which the marker no longer occurs changes nothing. *)
Theorem marker_absent_unchanged s f :
  remover s f ->
  (forall D, ~ occurs s D -> f D = D) /\
  (forall D, ~ occurs s (f D) -> f (f D) = f D).
Proof.
  intros Hf. pose proof (remover_marker Hf) as Hs.
  assert (H : forall D, ~ occurs s D -> f D = D)
    by (intros D HD; rewrite (remover_eq Hf); now apply remove_block_absent).
  split; [exact H|]. intros D HD. now apply H.
Qed.

Lemma marker_absent_unchanged_witness :
  remove_forecast_bands_section scenario1 = scenario1 /\
  remove_optimization_result_section
    (remove_optimization_result_section scenario1)
  = remove_optimization_result_section scenario1.
Proof.
  split.
  - apply (proj1 (marker_absent_unchanged remover_bands)).
    apply occurs_positions. vm_compute. reflexivity.
  - apply (proj2 (marker_absent_unchanged remover_results)).
    apply occurs_positions. vm_compute. reflexivity.
Defined.

(** C6: scenario 1 of the specification. *)
Theorem scenario1_result :
  remove_optimization_result_section scenario1
  = text "head" ++ nl ++ text "tail".
Proof. vm_compute. reflexivity. Qed.

(** C9: when the start marker occurs in [D] but no closing boundary
    occurs after any of its occurrences, the remover returns [D]
    unchanged: nothing is deleted up to the end of the document. *)
Theorem unclosed_block_unchanged s f :
  remover s f ->
  forall D,
    occurs s D ->
    (forall A T, D = A ++ s ++ T -> ~ closing_in T) ->
    f D = D.
Proof.
  intros Hf D _ H. rewrite (remover_eq Hf).
  apply remove_block_stop, search_block_None; [|assumption].
  exact (remover_marker Hf).
Qed.

Lemma unclosed_block_unchanged_witness :
  remove_optimization_result_section
    (text "a " ++ OPT ++ text "foo</div> tail")
  = text "a " ++ OPT ++ text "foo</div> tail".
Proof.
  apply (unclosed_block_unchanged remover_results).
  - now exists (text "a "), (text "foo</div> tail").
  - intros A T E (X & W & Y & _ & ET).
    assert (A = text "a ") as ->.
    { apply (positions_only OPT (text "a ") (OPT ++ text "foo</div> tail"))
        with (Y := T); [vm_compute; reflexivity|exact E]. }
    apply app_inv_head, app_inv_head in E. subst T.
    assert (P : positions DIV (text "foo</div> tail") = [3])
      by (vm_compute; reflexivity).
    pose proof (positions_complete DIV Y (X ++ DIV ++ W)) as I.
    rewrite <- !app_assoc, <- ET, P in I. destruct I as [I|[]].
    rewrite !length_app in I. simpl in I. lia.
Defined.

(** C10: no remover lengthens a document, so that the three sizes the
    driver reports (the lengths of the content read, of the content after
    the results removal and of the content after the bands removal) never
    increase. *)
Theorem removers_never_lengthen :
  (forall D, length (remove_optimization_result_section D) <= length D) /\
  (forall D, length (remove_forecast_bands_section D) <= length D) /\
  (forall C,
     length (remove_forecast_bands_section
               (remove_optimization_result_section C))
     <= length (remove_optimization_result_section C) /\
     length (remove_optimization_result_section C) <= length C).
Proof.
  assert (H : forall s f, remover s f -> forall D, length (f D) <= length D).
  { intros s f Hf D. rewrite (remover_eq Hf). apply remove_block_length. }
  pose proof (H _ _ remover_results) as H1.
  pose proof (H _ _ remover_bands) as H2.
  split; [exact H1|]. split; [exact H2|]. intros C. split; [apply H2|apply H1].
Qed.

(** ** Properties of the driver *)

Lemma store_same path n d : store path n d path = Some n.
Proof. unfold store. now rewrite String.eqb_refl. Qed.

Lemma store_other path n d q : q <> path -> store path n d q = d q.
Proof.
  intros H. unfold store. destruct (String.eqb_spec q path); congruence.
Qed.

(** The digits printed for a length read back as that length. *)
Lemma parse_decimal n : parse_nat (decimal n) = Some n.
Proof.
  unfold parse_nat, decimal. rewrite NilZero.usu.
  - simpl. f_equal. apply DecimalNat.Unsigned.of_to.
  - rewrite <- (DecimalNat.Unsigned.of_to n) at 1.
    rewrite DecimalNat.Unsigned.to_of. apply DecimalFacts.unorm_nonnil.
Qed.

Lemma universal_newlines_no_cr S :
  ~ In 13%N S -> universal_newlines S = S.
Proof.
  induction S as [|c S IH]; simpl; intros H; [reflexivity|].
  destruct (N.eqb_spec c 13) as [->|_]; [exfalso; apply H; now left|].
  f_equal. apply IH. intros I. apply H. now right.
Qed.

Lemma to_linesep_posix C : to_linesep (os_linesep Posix) C = C.
Proof.
  unfold to_linesep. induction C as [|c C IH]; [reflexivity|].
  cbn [flat_map]. rewrite IH. now destruct (N.eqb_spec c 10) as [->|_].
Qed.

(** What [main] does once the read has returned [C]. *)
Lemma main_after_read w f S :
  disk w file_path = Some (Regular f) ->
  readable f = true -> stored f = Utf8 S ->
  let C := universal_newlines S in
  let C1 := remove_optimization_result_section C in
  let C2 := remove_forecast_bands_section C1 in
  let out :=
    stdout w ++
    [("Original file size: " ++ decimal (length C) ++ " characters")%string;
     ("After removing optimization result: " ++ decimal (length C1)
      ++ " characters")%string;
     ("After removing forecast bands: " ++ decimal (length C2)
      ++ " characters")%string] in
  main w =
  bind (write_text file_path C2)
       (fun _ => print "Successfully removed both sections!")
       (World (os w) (disk w) out).
Proof.
  intros H Hr Hs. unfold main, bind at 1 2 3 4, read_text.
  rewrite H, Hr, Hs. unfold print at 1 2 3. cbn [os disk stdout].
  now rewrite <- !app_assoc.
Qed.

(** C7, as stated, fails: a page saved with CR LF line ends is read with
    LF line ends.  For the four characters [a CR LF b] the driver reports
    the size 3 three times and writes [a LF b] back, where the claim has
    the size 4 and the page as it was. *)
Lemma crlf_page_read_with_lf :
  length crlf_page = 4 /\
  fst (main (page_world crlf_page)) = Return tt /\
  disk (snd (main (page_world crlf_page))) file_path
  = Some (page (text "a" ++ nl ++ text "b")) /\
  stdout (snd (main (page_world crlf_page)))
  = ["Original file size: 3 characters"%string;
     "After removing optimization result: 3 characters"%string;
     "After removing forecast bands: 3 characters"%string;
     "Successfully removed both sections!"%string] /\
  ~ driver_as_claimed.
Proof.
  split; [reflexivity|]. split; [reflexivity|].
  split; [vm_compute; reflexivity|]. split; [vm_compute; reflexivity|].
  intros H.
  destruct (H (page_world crlf_page) crlf_page eq_refl) as (w' & E & _ & Ho).
  apply (f_equal (fun r => stdout (snd r))) in E. cbn [snd] in E.
  rewrite Ho in E. vm_compute in E. discriminate E.
Qed.

(** C7, amended: let [C] be the text read from the page, that is the text
    the page holds with every CR LF and every lone CR turned into LF.  When
    the page can be read, the driver removes the results block first and
    the bands block second, and prints three size lines whose digits read
    as the lengths of [C], of the text after the first removal and of the
    text after the second removal, in that order.  When the page can be
    written, the text after the second removal, each LF as the platform's
    line separator, is stored at the same path, every other file is left
    as it was and the completion message follows; otherwise the write
    raises after the three lines. *)
Theorem main_removes_results_then_bands w wr S :
  disk w file_path = Some (Regular (File true wr None (Utf8 S))) ->
  let C := universal_newlines S in
  let C1 := remove_optimization_result_section C in
  let C2 := remove_forecast_bands_section C1 in
  exists o w' d0 d1 d2,
    main w = (o, w') /\
    parse_nat d0 = Some (length C) /\
    parse_nat d1 = Some (length C1) /\
    parse_nat d2 = Some (length C2) /\
    (wr = true ->
     o = Return tt /\
     disk w' file_path = Some (page (to_linesep (os_linesep (os w)) C2)) /\
     (forall q, q <> file_path -> disk w' q = disk w q) /\
     stdout w' = stdout w ++
       [("Original file size: " ++ d0 ++ " characters")%string;
        ("After removing optimization result: " ++ d1
         ++ " characters")%string;
        ("After removing forecast bands: " ++ d2 ++ " characters")%string;
        "Successfully removed both sections!"%string]) /\
    (wr = false ->
     o = Raise PermissionError /\
     (forall q, disk w' q = disk w q) /\
     stdout w' = stdout w ++
       [("Original file size: " ++ d0 ++ " characters")%string;
        ("After removing optimization result: " ++ d1
         ++ " characters")%string;
        ("After removing forecast bands: " ++ d2
         ++ " characters")%string]).
Proof.
  intros H C C1 C2.
  rewrite (@main_after_read w _ S H eq_refl eq_refl). fold C C1 C2.
  unfold bind, write_text, print. cbn [os disk stdout]. rewrite H.
  cbn [writable readable fault].
  destruct wr; eexists; eexists;
    exists (decimal (length C)), (decimal (length C1)),
           (decimal (length C2));
    (split; [reflexivity|]); rewrite !parse_decimal;
    do 3 (split; [reflexivity|]); split; try discriminate; intros _;
    cbn [os disk stdout].
  - split; [reflexivity|]. split; [apply store_same|].
    split; [intros q Hq; now apply store_other|].
    now rewrite <- app_assoc.
  - repeat split.
Qed.

Lemma main_removes_results_then_bands_witness :
  exists o w' d0 d1 d2,
    main (page_world scenario1) = (o, w') /\
    parse_nat d0 = Some (length (universal_newlines scenario1)) /\
    parse_nat d1
    = Some (length (remove_optimization_result_section
                      (universal_newlines scenario1))) /\
    parse_nat d2
    = Some (length (remove_forecast_bands_section
                      (remove_optimization_result_section
                         (universal_newlines scenario1)))) /\
    (true = true ->
     o = Return tt /\
     disk w' file_path
     = Some (page (to_linesep (os_linesep (os (page_world scenario1)))
                     (remove_forecast_bands_section
                        (remove_optimization_result_section
                           (universal_newlines scenario1))))) /\
     (forall q, q <> file_path -> disk w' q = disk (page_world scenario1) q) /\
     stdout w' = stdout (page_world scenario1) ++
       [("Original file size: " ++ d0 ++ " characters")%string;
        ("After removing optimization result: " ++ d1
         ++ " characters")%string;
        ("After removing forecast bands: " ++ d2 ++ " characters")%string;
        "Successfully removed both sections!"%string]) /\
    (true = false ->
     o = Raise PermissionError /\
     (forall q, disk w' q = disk (page_world scenario1) q) /\
     stdout w' = stdout (page_world scenario1) ++
       [("Original file size: " ++ d0 ++ " characters")%string;
        ("After removing optimization result: " ++ d1
         ++ " characters")%string;
        ("After removing forecast bands: " ++ d2
         ++ " characters")%string]).
Proof.
  apply (@main_removes_results_then_bands (page_world scenario1) true scenario1).
  reflexivity.
Defined.

Lemma read_text_world path w o w' : read_text path w = (o, w') -> w' = w.
Proof.
  unfold read_text. destruct (disk w path) as [[f|e]|]; try congruence.
  destruct (readable f); [|congruence]. destruct (stored f); congruence.
Qed.

(** C8: when reading the file raises (the file is missing, may not be
    read, or does not decode), the driver stops with the same error before
    anything is printed or written: the world, and with it the file, is
    what it was. *)
Theorem read_failure_leaves_world w e w' :
  read_text file_path w = (Raise e, w') -> main w = (Raise e, w).
Proof.
  intros H. unfold main, bind. rewrite H.
  now rewrite (read_text_world _ _ H).
Qed.

Lemma read_failure_leaves_world_witness :
  main (World Posix (fun _ => None) []) =
    (Raise FileNotFoundError, World Posix (fun _ => None) []) /\
  main (World Posix
          (store file_path (Regular (File true true None Malformed))
             (fun _ => None)) [])
  = (Raise UnicodeDecodeError,
     World Posix
       (store file_path (Regular (File true true None Malformed))
          (fun _ => None)) []) /\
  main (World Posix
          (store file_path (Unopenable IsADirectoryError) (fun _ => None)) [])
  = (Raise IsADirectoryError,
     World Posix
       (store file_path (Unopenable IsADirectoryError) (fun _ => None)) []).
Proof.
  split; [|split].
  - apply (@read_failure_leaves_world _ FileNotFoundError
             (World Posix (fun _ => None) [])).
    reflexivity.
  - apply (@read_failure_leaves_world _ UnicodeDecodeError
             (World Posix
                (store file_path (Regular (File true true None Malformed))
                   (fun _ => None)) [])).
    reflexivity.
  - apply (@read_failure_leaves_world _ IsADirectoryError
             (World Posix
                (store file_path (Unopenable IsADirectoryError)
                   (fun _ => None)) [])).
    reflexivity.
Defined.

(** ** Further properties of the removers *)

Lemma subseq_refl a : subseq a a.
Proof. induction a; now constructor. Qed.

Lemma subseq_skip X : forall a b, subseq a b -> subseq a (X ++ b).
Proof. induction X as [|x X IH]; intros a b H; simpl; [|constructor]; auto. Qed.

Lemma subseq_app_head X : forall a b, subseq a b -> subseq (X ++ a) (X ++ b).
Proof. induction X as [|x X IH]; intros a b H; simpl; [|constructor]; auto. Qed.

Lemma subseq_trans a b : subseq a b -> forall c, subseq b c -> subseq a c.
Proof.
  intros Hab c Hbc. revert a Hab.
  induction Hbc as [|x b c Hbc IH|x b c Hbc IH]; intros a Hab.
  - assumption.
  - inversion Hab; subst; constructor; auto.
  - constructor. auto.
Qed.

Lemma sub_loop_subseq fl p fuel : forall s,
  subseq (Re.sub_loop fuel fl p [] s) s.
Proof.
  induction fuel as [|fuel IH]; intros s; simpl; [apply subseq_refl|].
  destruct (Re.search fl p s) as [[pre rest]|] eqn:E; [|apply subseq_refl].
  destruct (search_inv _ _ _ E) as (t & -> & Ht).
  destruct (rmatch_suffix _ _ _ Ht) as [X ->].
  apply subseq_app_head, subseq_skip, IH.
Qed.

(** X1: a remover only deletes.  Its output is the input with some
    characters left out and the others in their order, and so is the text
    the driver writes back with respect to the text it read. *)
Theorem removers_only_delete :
  (forall D, subseq (remove_optimization_result_section D) D) /\
  (forall D, subseq (remove_forecast_bands_section D) D) /\
  (forall C,
     subseq (remove_forecast_bands_section
               (remove_optimization_result_section C)) C).
Proof.
  assert (H : forall s f, remover s f -> forall D, subseq (f D) D).
  { intros s f Hf D. rewrite (remover_eq Hf). apply sub_loop_subseq. }
  pose proof (H _ _ remover_results) as H1.
  pose proof (H _ _ remover_bands) as H2.
  split; [exact H1|]. split; [exact H2|].
  intros C. exact (subseq_trans (H2 _) (H1 C)).
Qed.

(** X2: a remover either returns the document unchanged or shortens it by
    at least its marker and the two [</div>] of a closing boundary; a
    document shorter than that, the empty one included, is never changed. *)
Theorem removal_takes_whole_block s f :
  remover s f ->
  forall D,
    f D = D \/ length (f D) + length s + 12 <= length D.
Proof.
  intros Hf D. pose proof (remover_marker Hf) as Hs. rewrite (remover_eq Hf).
  destruct (Re.search true (block s) D) as [[pre rest]|] eqn:E.
  - right. rewrite (remove_block_step Hs _ E).
    destruct (search_block_inv Hs _ E) as (W & M & Wc & _ & _ & ->).
    pose proof (remove_block_length s rest).
    rewrite !length_app. change (length DIV) with 6. lia.
  - left. now apply remove_block_stop.
Qed.

Lemma removal_takes_whole_block_witness :
  remove_optimization_result_section scenario1 = scenario1 \/
  length (remove_optimization_result_section scenario1) + length OPT + 12
  <= length scenario1.
Proof. apply (removal_takes_whole_block remover_results). Defined.

(** The search reports the leftmost match. *)
Lemma search_leftmost fl p : forall s pre rest,
  Re.search fl p s = Some (pre, rest) ->
  forall k, k < length pre -> Re.rmatch fl p (skipn k s) = None.
Proof.
  induction s as [|c s IH]; simpl; intros pre rest H k Hk.
  - destruct (Re.rmatch fl p []); [|discriminate].
    injection H as <- _. simpl in Hk. lia.
  - destruct (Re.rmatch fl p (c :: s)) eqn:E.
    + injection H as <- _. simpl in Hk. lia.
    + destruct (Re.search fl p s) as [[pre' rest']|] eqn:E'; [|discriminate].
      injection H as <- <-. destruct k as [|k]; [exact E|].
      simpl in Hk. apply (IH pre' rest' eq_refl). lia.
Qed.

Lemma first_tail_min f : forall s r,
  first_tail f s = Some r ->
  exists M t, s = M ++ t /\ f t = Some r /\
    forall k, k < length M -> f (skipn k s) = None.
Proof.
  induction s as [|c s IH]; simpl; intros r H.
  - destruct (f []) eqn:E; [|discriminate].
    exists [], []. repeat split; [congruence|]. simpl. intros; lia.
  - destruct (f (c :: s)) eqn:E.
    + exists [], (c :: s). repeat split; [congruence|]. simpl. intros; lia.
    + destruct (IH _ H) as (M & t & -> & Ht & Hmin).
      exists (c :: M), t. repeat split; [assumption|].
      intros [|k] Hk; [exact E|]. simpl in Hk. apply Hmin. lia.
Qed.

Lemma first_tail_None_inv f : forall s,
  first_tail f s = None -> forall X t, s = X ++ t -> f t = None.
Proof.
  induction s as [|c s IH]; simpl; intros H X t E.
  - destruct (f []) eqn:E0; [discriminate|].
    destruct X; [|discriminate]. simpl in E. now subst t.
  - destruct (f (c :: s)) eqn:E0; [discriminate|].
    destruct X as [|x X]; simpl in E; [now subst t|].
    injection E as _ E. now apply (IH H X).
Qed.

(** The shape of a block match: whitespace, the marker, a body in which no
    closing boundary starts, and an end marker. *)
Lemma block_match_shape s t r :
  block_match s t = Some r ->
  exists W M e, t = W ++ s ++ M ++ e ++ r /\ allspace W = true /\
    end_marker e /\
    forall k, k < length M -> closing (skipn k (M ++ e ++ r)) = None.
Proof.
  unfold block_match.
  destruct (strip_prefix s (lstrip t)) as [u|] eqn:E; [|discriminate].
  intros H. apply strip_prefix_Some in E.
  destruct (first_tail_min _ _ H) as (M & v & -> & Hv & Hmin).
  destruct (closing_inv _ Hv) as (Wc & HWc & ->).
  destruct (lstrip_split t) as (W & HW & Et).
  exists W, M, (DIV ++ Wc ++ DIV). rewrite <- !app_assoc.
  split; [now rewrite Et, E at 1|]. split; [assumption|].
  split; [now exists Wc|assumption].
Qed.

Lemma block_match_space s c t :
  isspace c = true -> block_match s (c :: t) = block_match s t.
Proof. intros Hc. unfold block_match. simpl. now rewrite Hc. Qed.

Lemma skipn_app_length (X Y : document) : skipn (length X) (X ++ Y) = Y.
Proof. induction X; simpl; auto. Qed.

Lemma app_prefix_cases (X A U V : document) :
  X ++ U = A ++ V -> length X <= length A -> exists L, A = X ++ L /\ U = L ++ V.
Proof.
  revert A. induction X as [|x X IH]; intros A E L.
  - now exists A.
  - destruct A as [|a A]; [simpl in L; lia|].
    injection E as -> E. simpl in L.
    destruct (IH A E) as (L' & -> & ->); [lia|]. now exists L'.
Qed.

Section BlockShape.

Variable s : document.
Hypothesis s_marker : marker s.

(** The first match of a block pattern, in full: it starts where the
    whitespace in front of the first occurrence of the marker starts and
    ends with the nearest end marker. *)
Lemma search_block_shape D pre rest :
  Re.search true (block s) D = Some (pre, rest) ->
  exists W M e,
    D = pre ++ W ++ s ++ M ++ e ++ rest /\
    allspace W = true /\
    (forall X c, pre = X ++ [c] -> isspace c = false) /\
    first_occurrence s (pre ++ W) /\
    end_marker e /\
    (forall k, k < length M -> closing (skipn k (M ++ e ++ rest)) = None).
Proof.
  intros E. pose proof (search_leftmost _ _ _ E) as Hleft.
  destruct (search_inv _ _ _ E) as (t & -> & Ht).
  rewrite rmatch_block in Ht by assumption.
  destruct (block_match_shape _ _ Ht) as (W & M & e & -> & HW & He & HM).
  exists W, M, e. split; [reflexivity|]. split; [assumption|].
  assert (Hpre : forall X c, pre = X ++ [c] -> isspace c = false).
  { intros X c ->. destruct (isspace c) eqn:Hc; [|reflexivity].
    specialize (Hleft (length X)). rewrite <- app_assoc in Hleft.
    rewrite skipn_app_length, rmatch_block in Hleft by assumption.
    simpl in Hleft. rewrite block_match_space, Ht in Hleft by assumption.
    rewrite length_app in Hleft. simpl in Hleft.
    assert (Some rest = None) by (apply Hleft; lia). discriminate. }
  split; [exact Hpre|]. split; [|split; assumption].
  intros X Y EX.
  destruct (Nat.lt_ge_cases (length X) (length (pre ++ W))) as [Hlt|Hge].
  - exfalso. destruct (Nat.lt_ge_cases (length X) (length pre)) as [Hp|Hp].
    + (* the marker would start before the match *)
      specialize (Hleft (length X) Hp).
      rewrite rmatch_block in Hleft by assumption.
      assert (ED : pre ++ W ++ s ++ M ++ e ++ rest
                   = X ++ s ++ (Y ++ M ++ e ++ rest)).
      { rewrite (app_assoc pre W), (app_assoc (pre ++ W) s), EX.
        now rewrite <- !app_assoc. }
      rewrite ED, skipn_app_length in Hleft.
      destruct He as (Wc & HWc & ->).
      rewrite <- !app_assoc, (app_assoc Y M) in Hleft.
      apply (@block_match_intro s (Y ++ M) Wc rest s_marker HWc).
      exact Hleft.
    + (* the marker would start inside the whitespace *)
      rewrite <- app_assoc in EX.
      destruct (app_prefix_cases _ _ _ _ EX Hp) as (L & -> & EW).
      rewrite length_app in Hlt.
      destruct s_marker as (c0 & s' & Es & H0). rewrite Es in EW.
      destruct (app_prefix_cases L W _ _ (eq_sym EW)) as (L' & -> & EL');
        [rewrite !length_app in Hlt; lia|].
      destruct L' as [|l L'].
      * rewrite app_nil_r, !length_app in Hlt. lia.
      * simpl in EL'. injection EL' as <- _.
        rewrite allspace_app in HW. apply andb_prop in HW as [_ HW].
        simpl in HW. rewrite H0 in HW. discriminate.
  - apply (f_equal (@length N)) in EX as EL. rewrite !length_app in EL.
    rewrite length_app in Hge.
    apply (app_same_length X (pre ++ W) (s ++ Y) s); [now rewrite EX|].
    rewrite length_app. lia.
Qed.

End BlockShape.

(** X3: every change a remover makes starts with the span of its first
    match.  When the output differs from [D], [D] reads [pre], a run of
    whitespace [W], the marker, a body [M], an end marker [e] and a rest;
    [pre] does not end in whitespace, the marker does not occur before this
    place, no closing boundary starts in [M]; the span from [W] to [e] is
    deleted and the rest is handed to the remover again. *)
Theorem removal_shape s f :
  remover s f ->
  forall D,
    f D <> D ->
    exists pre W M e rest,
      D = pre ++ W ++ s ++ M ++ e ++ rest /\
      allspace W = true /\
      (forall X c, pre = X ++ [c] -> isspace c = false) /\
      first_occurrence s (pre ++ W) /\
      end_marker e /\
      (forall k, k < length M -> closing (skipn k (M ++ e ++ rest)) = None) /\
      f D = pre ++ f rest.
Proof.
  intros Hf D HD. pose proof (remover_marker Hf) as Hs.
  rewrite !(remover_eq Hf) in *.
  destruct (Re.search true (block s) D) as [[pre rest]|] eqn:E.
  - destruct (search_block_shape Hs _ E) as (W & M & e & ED & H).
    exists pre, W, M, e, rest. split; [exact ED|].
    repeat (split; [apply H|]).
    rewrite (remover_eq Hf). now apply remove_block_step.
  - now rewrite remove_block_stop in HD.
Qed.

Lemma removal_shape_witness :
  exists pre W M e rest,
    scenario1 = pre ++ W ++ OPT ++ M ++ e ++ rest /\
    allspace W = true /\
    (forall X c, pre = X ++ [c] -> isspace c = false) /\
    first_occurrence OPT (pre ++ W) /\
    end_marker e /\
    (forall k, k < length M -> closing (skipn k (M ++ e ++ rest)) = None) /\
    remove_optimization_result_section scenario1
    = pre ++ remove_optimization_result_section rest.
Proof.
  apply (removal_shape remover_results). vm_compute. discriminate.
Defined.

Lemma first_occurrence_unique s A A' T T' :
  first_occurrence s A -> first_occurrence s A' ->
  A ++ s ++ T = A' ++ s ++ T' -> A = A'.
Proof.
  assert (half : forall A A' T T',
            first_occurrence s A' -> length A <= length A' ->
            A ++ s ++ T = A' ++ s ++ T' -> A = A').
  { intros B B' U U' H' L E.
    destruct (app_prefix_cases _ _ _ _ E L) as (L1 & -> & E1).
    rewrite app_assoc in E1.
    destruct (app_prefix_cases s (L1 ++ s) U U' E1) as (L2 & E2 & _);
      [rewrite length_app; lia|].
    apply (H' B L2). now rewrite <- app_assoc, E2. }
  intros H H' E. destruct (Nat.le_ge_cases (length A) (length A')).
  - now apply (half A A' T T').
  - symmetry. now apply (half A' A T' T).
Qed.

(** X4: the text in front of the first occurrence of the marker is out of
    a remover's reach, its trailing whitespace apart: whatever follows the
    marker, the output starts with that text stripped on the right. *)
Theorem text_before_first_marker_kept s f :
  remover s f ->
  forall A T,
    first_occurrence s A ->
    exists Z, f (A ++ s ++ T) = rstrip A ++ Z.
Proof.
  intros Hf A T H1. pose proof (remover_marker Hf) as Hs.
  rewrite (remover_eq Hf).
  destruct (first_tail closing T) as [r|] eqn:HT.
  - exists (remove_block s r).
    now rewrite (remove_block_step Hs _ (search_first Hs _ H1 HT)).
  - destruct (Re.search true (block s) (A ++ s ++ T)) as [[pre rest]|] eqn:E.
    + exfalso.
      destruct (search_block_shape Hs _ E)
        as (W & M & e & ED & _ & _ & H1' & He & _).
      rewrite (app_assoc pre W) in ED.
      pose proof (@first_occurrence_unique s A (pre ++ W) T _ H1 H1' ED)
        as EA.
      rewrite EA in ED. apply app_inv_head, app_inv_head in ED.
      pose proof (@first_tail_None_inv closing T HT M _ ED) as HC.
      now rewrite end_marker_closing in HC.
    + rewrite (@remove_block_stop s _ E).
      destruct (rstrip_split A) as (W & _ & EA).
      exists (W ++ s ++ T). rewrite EA at 1. now rewrite <- app_assoc.
Qed.

Lemma text_before_first_marker_kept_witness :
  exists Z,
    remove_forecast_bands_section
      (text "keep me  " ++ BANDS ++ text "<b></div>")
    = rstrip (text "keep me  ") ++ Z.
Proof.
  apply (text_before_first_marker_kept remover_bands).
  intros X Y E. apply (positions_only BANDS (text "keep me  ") BANDS) with (Y := Y).
  - vm_compute. reflexivity.
  - exact E.
Defined.

Lemma remove_block_single s A M e B :
  marker s -> end_marker e ->
  (forall k, k < length M -> closing (skipn k (M ++ e ++ B)) = None) ->
  (forall X Y, A ++ s ++ M ++ e ++ B = X ++ s ++ Y -> X = A) ->
  remove_block s (A ++ s ++ M ++ e ++ B) = rstrip A ++ B.
Proof.
  intros Hs He HM Hu.
  assert (H1 : first_occurrence s A).
  { intros X Y E. apply (Hu X (Y ++ M ++ e ++ B)).
    rewrite (app_assoc A), E, <- !app_assoc. reflexivity. }
  assert (HT : first_tail closing (M ++ e ++ B) = Some B)
    by (apply first_tail_exact; [assumption|now apply end_marker_closing]).
  rewrite (remove_block_step Hs _ (search_first Hs _ H1 HT)).
  f_equal. apply remove_block_absent; [assumption|].
  intros (X & Y & ->).
  assert (E : A ++ s ++ M ++ e ++ X = A).
  { apply (Hu _ Y). now rewrite <- !app_assoc. }
  apply (f_equal (@length N)) in E. rewrite !length_app in E.
  pose proof (marker_length Hs). lia.
Qed.

(** X5: the two removals in the driver's order, on a page that holds a
    results block and after it a bands block.  When each marker occurs
    once (the bands marker once in the text left by the first removal) and
    each body is free of closing boundaries, both blocks go with the
    whitespace in front of them and everything else stays in place. *)
Theorem both_blocks_removed A M1 e1 Bm M2 e2 C :
  end_marker e1 -> end_marker e2 ->
  (forall k, k < length M1 ->
     closing (skipn k (M1 ++ e1 ++ Bm ++ BANDS ++ M2 ++ e2 ++ C)) = None) ->
  (forall k, k < length M2 -> closing (skipn k (M2 ++ e2 ++ C)) = None) ->
  (forall X Y,
     A ++ OPT ++ M1 ++ e1 ++ Bm ++ BANDS ++ M2 ++ e2 ++ C = X ++ OPT ++ Y ->
     X = A) ->
  (forall X Y,
     (rstrip A ++ Bm) ++ BANDS ++ M2 ++ e2 ++ C = X ++ BANDS ++ Y ->
     X = rstrip A ++ Bm) ->
  remove_forecast_bands_section
    (remove_optimization_result_section
       (A ++ OPT ++ M1 ++ e1 ++ Bm ++ BANDS ++ M2 ++ e2 ++ C))
  = rstrip (rstrip A ++ Bm) ++ C.
Proof.
  intros He1 He2 HM1 HM2 Hu1 Hu2.
  rewrite (remover_eq remover_results), (remover_eq remover_bands).
  rewrite (@remove_block_single OPT A M1 e1 _ marker_OPT He1 HM1 Hu1).
  rewrite (app_assoc (rstrip A) Bm).
  exact (@remove_block_single BANDS _ M2 e2 C marker_BANDS He2 HM2 Hu2).
Qed.

Lemma both_blocks_removed_witness :
  remove_forecast_bands_section
    (remove_optimization_result_section both_blocks)
  = text "<main>" ++ nl ++ text "<hr/>" ++ nl ++ text "</main>".
Proof.
  apply (@both_blocks_removed
           (text "<main>" ++ nl ++ text "  ") (nl ++ text "<p>r</p>")
           (DIV ++ nl ++ DIV) (nl ++ text "<hr/>" ++ nl) (text "<p>b</p>")
           (DIV ++ DIV) (nl ++ text "</main>")).
  - now exists nl.
  - now exists [].
  - intros k Hk. do 9 (destruct k as [|k]; [reflexivity|]). simpl in Hk. lia.
  - intros k Hk. do 8 (destruct k as [|k]; [reflexivity|]). simpl in Hk. lia.
  - apply positions_only. vm_compute. reflexivity.
  - apply positions_only. vm_compute. reflexivity.
Defined.

(** The text after the last [>] of a document survives every round of
    the loop. *)
Lemma remove_block_tail s B :
  marker s -> ~ In 62%N B ->
  forall n Y, length Y <= n -> exists Z, remove_block s (Y ++ B) = Z ++ B.
Proof.
  intros Hs HB. induction n as [|n IH]; intros Y Hn.
  - destruct Y; [|simpl in Hn; lia].
    destruct (Re.search true (block s) ([] ++ B)) as [[pre rest]|] eqn:E.
    + exfalso. destruct (search_block_inv Hs _ E) as (W & M & Wc & _ & _ & ED).
      apply HB. change ([] ++ B) with B in ED. rewrite ED, !in_app_iff.
      right. right. right. right. left.
      change DIV with (text "</div" ++ [62%N]).
      apply in_or_app. right. now left.
    + exists []. now apply remove_block_stop.
  - destruct (Re.search true (block s) (Y ++ B)) as [[pre rest]|] eqn:E.
    + rewrite (remove_block_step Hs _ E).
      destruct (search_block_inv Hs _ E) as (W & M & Wc & _ & _ & ED).
      assert (EP : exists P, Y ++ B = (P ++ [62%N]) ++ rest /\
                             length pre + length s <= length P).
      { exists (pre ++ W ++ s ++ M ++ DIV ++ Wc ++ text "</div").
        split; [rewrite ED, <- !app_assoc; reflexivity|].
        rewrite !length_app. lia. }
      destruct EP as (P & EP & LP).
      destruct (Nat.le_gt_cases (length (P ++ [62%N])) (length Y)) as [L|L].
      * symmetry in EP.
        destruct (app_prefix_cases _ _ _ _ EP L) as (L1 & EY & ->).
        destruct (IH L1) as [Z HZ].
        { apply (f_equal (@length N)) in EY. rewrite !length_app in EY.
          pose proof (marker_length Hs). simpl in EY. lia. }
        exists (pre ++ Z). now rewrite HZ, app_assoc.
      * exfalso.
        destruct (app_prefix_cases Y (P ++ [62%N]) B rest EP) as (L1 & EL & ->);
          [lia|].
        apply HB, in_or_app. left.
        destruct L1 as [|l L1] using rev_ind.
        -- rewrite app_nil_r in EL. rewrite EL in L. lia.
        -- rewrite app_assoc in EL. apply app_inj_tail in EL as [_ <-].
           apply in_or_app. right. now left.
    + exists Y. now apply remove_block_stop.
Qed.

(** X9: the text after the last [>] of a document is out of a remover's
    reach: a match ends with the [>] of a [</div>], so that a tail without
    that character comes out as it went in. *)
Theorem text_after_last_tag_kept s f :
  remover s f ->
  forall Y B,
    ~ In 62%N B ->
    exists Z, f (Y ++ B) = Z ++ B.
Proof.
  intros Hf Y B HB. rewrite (remover_eq Hf).
  exact (@remove_block_tail s B (remover_marker Hf) HB (length Y) Y (le_n _)).
Qed.

Lemma text_after_last_tag_kept_witness :
  exists Z,
    remove_optimization_result_section
      ((OPT ++ DIV ++ DIV) ++ nl ++ text "export default Page;")
    = Z ++ nl ++ text "export default Page;".
Proof.
  apply (text_after_last_tag_kept remover_results).
  vm_compute. intuition discriminate.
Defined.

(** ** Further properties of the driver *)

(** X6: let [C] be the text read from the page (CR LF and lone CR read as
    LF).  When the page can be read and written and [C] holds neither
    marker, the driver returns, prints three size lines with the same
    digits, which read as the length of [C], then the completion message,
    and stores [C] at the page's path with each LF as the platform's line
    separator, every other file being left as it was.  On a platform
    whose separator is LF a page without CR is stored as it was. *)
Theorem main_without_markers w S :
  disk w file_path = Some (page S) ->
  ~ occurs OPT (universal_newlines S) ->
  ~ occurs BANDS (universal_newlines S) ->
  exists w' d,
    main w = (Return tt, w') /\
    parse_nat d = Some (length (universal_newlines S)) /\
    disk w' file_path
    = Some (page (to_linesep (os_linesep (os w)) (universal_newlines S))) /\
    (forall q, q <> file_path -> disk w' q = disk w q) /\
    stdout w' = stdout w ++
      [("Original file size: " ++ d ++ " characters")%string;
       ("After removing optimization result: " ++ d ++ " characters")%string;
       ("After removing forecast bands: " ++ d ++ " characters")%string;
       "Successfully removed both sections!"%string] /\
    (os w = Posix -> ~ In 13%N S -> forall q, disk w' q = disk w q).
Proof.
  intros H HO HB.
  assert (E1 : remove_optimization_result_section (universal_newlines S)
               = universal_newlines S)
    by (rewrite (remover_eq remover_results);
        now apply remove_block_absent; [apply marker_OPT|]).
  assert (E2 : remove_forecast_bands_section (universal_newlines S)
               = universal_newlines S)
    by (rewrite (remover_eq remover_bands);
        now apply remove_block_absent; [apply marker_BANDS|]).
  rewrite (@main_after_read w _ S H eq_refl eq_refl). rewrite E1, E2.
  unfold bind, write_text, print. cbn [os disk stdout]. rewrite H.
  cbn [page writable readable fault].
  eexists. exists (decimal (length (universal_newlines S))).
  split; [reflexivity|]. split; [apply parse_decimal|].
  cbn [os disk stdout]. split; [apply store_same|].
  split; [intros q Hq; now apply store_other|].
  split; [now rewrite <- app_assoc|].
  intros Hos HS q. rewrite Hos, to_linesep_posix.
  rewrite universal_newlines_no_cr by assumption.
  unfold store. destruct (String.eqb_spec q file_path) as [->|];
    [now rewrite H|reflexivity].
Qed.

Lemma main_without_markers_witness :
  exists w' d,
    main (page_world crlf_page) = (Return tt, w') /\
    parse_nat d = Some (length (universal_newlines crlf_page)) /\
    disk w' file_path
    = Some (page (to_linesep (os_linesep (os (page_world crlf_page)))
                    (universal_newlines crlf_page))) /\
    (forall q, q <> file_path -> disk w' q = disk (page_world crlf_page) q) /\
    stdout w' = stdout (page_world crlf_page) ++
      [("Original file size: " ++ d ++ " characters")%string;
       ("After removing optimization result: " ++ d ++ " characters")%string;
       ("After removing forecast bands: " ++ d ++ " characters")%string;
       "Successfully removed both sections!"%string] /\
    (os (page_world crlf_page) = Posix -> ~ In 13%N crlf_page ->
     forall q, disk w' q = disk (page_world crlf_page) q).
Proof.
  apply (@main_without_markers (page_world crlf_page) crlf_page).
  - reflexivity.
  - apply occurs_positions. vm_compute. reflexivity.
  - apply occurs_positions. vm_compute. reflexivity.
Defined.

(** X7: whatever the state of the page and however the run ends, the
    driver leaves every file other than the page as it was. *)
Theorem main_keeps_other_files w q :
  q <> file_path -> disk (snd (main w)) q = disk w q.
Proof.
  intros Hq. unfold main, bind at 1, read_text.
  destruct (disk w file_path) as [[f|e]|] eqn:H; try reflexivity.
  destruct (readable f) eqn:Hr; [|reflexivity].
  destruct (stored f) as [S|] eqn:Hs; [|reflexivity].
  pose proof (@main_after_read w f S H Hr Hs) as E. cbv zeta in E.
  unfold main, bind at 1, read_text in E. rewrite H, Hr, Hs in E.
  rewrite E. unfold bind, write_text, print. cbn [os disk stdout].
  rewrite H. destruct (writable f); [|reflexivity].
  destruct (fault f) as [[e remains]|]; cbn [snd disk]; now apply store_other.
Qed.

Lemma main_keeps_other_files_witness :
  disk (snd (main (page_world scenario1))) "package.json"
  = disk (page_world scenario1) "package.json".
Proof.
  apply (@main_keeps_other_files (page_world scenario1) "package.json").
  discriminate.
Defined.
